(** * redis-api/app/main.py: the user CRUD handlers over a Redis store

    The six request handlers of [main.py] are embedded as computations that
    thread the contents of the Redis server and may raise an
    [HTTPException].  The Redis commands the handlers call ([EXISTS],
    [HSET], [HGETALL], [DEL], [KEYS]) are given their Redis meaning on a
    store that maps each key to the hash (field map) held under it. *)

From Stdlib Require Import String Ascii ZArith.
From stdpp Require Import gmap strings list fin_maps.

Local Open Scope string_scope.

(** ** The store and the handler monad *)

(** A hash value: field name to field value. *)
Abbreviation fields := (gmap string string).

(** The contents of the Redis server: key to hash. *)
Abbreviation store := (gmap string (gmap string string)).

(** [HTTPException(status_code=..., detail=...)] *)
Record HTTPException := mkHTTPException {
  status_code : Z;
  detail : string
}.

(** How a call ends: [return v] or [raise HTTPException(...)]. *)
Inductive outcome (A : Type) : Type :=
  | Returned (v : A)
  | Raised (e : HTTPException).
Arguments Returned {A} v.
Arguments Raised {A} e.

(** A computation against the shared [redis_client]: the store goes in,
    an outcome and the store as the call left it come out.  The store is
    threaded through a raise as well, so that what a handler wrote before
    raising stays visible. *)
Definition handler (A : Type) : Type := store → outcome A * store.

Definition ret {A} (v : A) : handler A := λ s, (Returned v, s).

Definition raise {A} (e : HTTPException) : handler A := λ s, (Raised e, s).

Definition bind {A B} (c : handler A) (k : A → handler B) : handler B :=
  λ s, match c s with
       | (Returned v, s') => k v s'
       | (Raised e, s') => (Raised e, s')
       end.

#[global] Instance handler_ret : MRet handler := @ret.
#[global] Instance handler_bind : MBind handler := λ A B k c, bind c k.

(** The outcome and the final store of running a handler. *)
Definition result_of {A} (c : handler A) (s : store) : outcome A := (c s).1.
Definition store_of {A} (c : handler A) (s : store) : store := (c s).2.

(** ** The Redis commands used by the handlers *)

Module redis_client.

(** [EXISTS key]: the number of the given keys that exist. *)
Definition exists_ (key : string) : handler Z :=
  λ s, (Returned (if s !! key is Some _ then 1%Z else 0%Z), s).

(** [HSET key field value [field value ...]]: sets the given fields in the
    hash at [key], creating the hash when the key is absent; fields of the
    hash that are not given keep their value.  Returns the number of fields
    that were added. *)
Definition hset (key : string) (mapping : fields) : handler Z :=
  λ s, let old := default ∅ (s !! key) in
       (Returned (Z.of_nat (size (mapping ∖ old))),
        <[key := mapping ∪ old]> s).

(** [HGETALL key]: the hash at [key], empty when the key is absent. *)
Definition hgetall (key : string) : handler fields :=
  λ s, (Returned (default ∅ (s !! key)), s).

(** [DEL key]: removes the key; the number of keys that were removed. *)
Definition delete (key : string) : handler Z :=
  λ s, (Returned (if s !! key is Some _ then 1%Z else 0%Z), base.delete key s).

(** Glob matching as [KEYS] does it, for patterns made of literal
    characters and [*]. *)
Fixpoint glob_match (pattern key : string) : bool :=
  match pattern with
  | EmptyString => match key with EmptyString => true | _ => false end
  | String c pattern' =>
      if Ascii.eqb c "*"%char then
        (fix star (k : string) : bool :=
           glob_match pattern' k ||
           match k with
           | EmptyString => false
           | String _ k' => star k'
           end) key
      else
        match key with
        | EmptyString => false
        | String d key' => Ascii.eqb c d && glob_match pattern' key'
        end
  end.

(** [KEYS pattern]: every key matching the pattern, in no promised order
    (here: the order in which the map enumerates them). *)
Definition keys (pattern : string) : handler (list string) :=
  λ s, (Returned (filter (λ k, glob_match pattern k = true) (map_to_list s).*1), s).

End redis_client.

(** ** The handlers *)

(** [class User(BaseModel)]: the request body, after validation. *)
Record User := mkUser {
  name : string;
  email : string
}.

(** The JSON bodies the handlers return. *)
Inductive response :=
  | Message (message : string)
  | UserData (user : fields)
  | Users (users : list fields).

(** Python truth value of an integer reply. *)
Definition truthy (n : Z) : bool := negb (n =? 0)%Z.

(** [bytes.decode('utf-8')].  The client sends a [str] as its UTF-8 bytes
    and the store hands the same bytes back; text is kept as text on both
    sides, so decoding what was stored gives back the text. *)
Definition decode (b : string) : string := b.

(** [{key.decode('utf-8'): value.decode('utf-8') for key, value in user_data.items()}] *)
Definition decode_items (user_data : fields) : fields :=
  list_to_map (prod_map decode decode <$> map_to_list user_data).

(** [f"user:{email}"] *)
Definition user_key (email : string) : string := "user:" ++ email.

(** [{"name": user.name, "email": user.email}] *)
Definition user_mapping (user : User) : fields :=
  <["name" := name user]> (<["email" := email user]> ∅).

Definition read_root : handler response :=
  ret (Message "Welcome to the Redis API").

Definition create_user (user : User) : handler response :=
  let user_key := user_key (email user) in
  found ← redis_client.exists_ user_key;
  if truthy found then
    raise (mkHTTPException 400 "User already exists")
  else
    _ ← redis_client.hset user_key (user_mapping user);
    ret (Message "User created successfully").

Definition get_user (email : string) : handler response :=
  let user_key := user_key email in
  found ← redis_client.exists_ user_key;
  if negb (truthy found) then
    raise (mkHTTPException 404 "User not found")
  else
    user_data ← redis_client.hgetall user_key;
    ret (UserData (decode_items user_data)).

Definition update_user (email : string) (user : User) : handler response :=
  let user_key := user_key email in
  found ← redis_client.exists_ user_key;
  if negb (truthy found) then
    raise (mkHTTPException 404 "User not found")
  else
    _ ← redis_client.hset user_key (user_mapping user);
    ret (Message "User updated successfully").

Definition delete_user (email : string) : handler response :=
  let user_key := user_key email in
  result ← redis_client.delete user_key;
  if negb (truthy result) then
    raise (mkHTTPException 404 "User not found")
  else
    ret (Message "User deleted successfully").

(** The [for key in keys:] loop of [get_all_users], appending to [users]. *)
Fixpoint collect_users (keys : list string) (users : list fields)
  : handler (list fields) :=
  match keys with
  | [] => ret users
  | key :: keys' =>
      user_data ← redis_client.hgetall key;
      collect_users keys' (users ++ [decode_items user_data])
  end.

Definition get_all_users : handler response :=
  keys ← redis_client.keys "user:*";
  users ← collect_users keys [];
  ret (Users users).

(** The two errors the handlers raise. *)
Definition conflict : HTTPException := mkHTTPException 400 "User already exists".
Definition not_found : HTTPException := mkHTTPException 404 "User not found".

(** ** Requests and reachable stores *)

Inductive request :=
  | ReadRoot
  | CreateUser (user : User)
  | GetUser (email : string)
  | UpdateUser (email : string) (user : User)
  | DeleteUser (email : string)
  | GetAllUsers.

Definition handle (r : request) : handler response :=
  match r with
  | ReadRoot => read_root
  | CreateUser user => create_user user
  | GetUser email => get_user email
  | UpdateUser email user => update_user email user
  | DeleteUser email => delete_user email
  | GetAllUsers => get_all_users
  end.

(** Serving the requests one after the other: the outcome of each and the
    store at the end. *)
Fixpoint run (rs : list request) (s : store) : list (outcome response) * store :=
  match rs with
  | [] => ([], s)
  | r :: rs' =>
      let '(o, s1) := handle r s in
      let '(os, s2) := run rs' s1 in
      (o :: os, s2)
  end.

(** The stores reachable from the empty one through the six operations. *)
Definition reachable (s : store) : Prop := ∃ rs, s = (run rs ∅).2.

(** The field map [{name: n, email: e}]. *)
Definition record_of (n e : string) : fields :=
  <["name" := n]> (<["email" := e]> ∅).

(** The replies of the calls that went through. *)
Definition created : outcome response := Returned (Message "User created successfully").
Definition updated : outcome response := Returned (Message "User updated successfully").
Definition deleted : outcome response := Returned (Message "User deleted successfully").

(** ** Views of the store used in the statements *)

(** The keys [KEYS 'user:*'] answers with. *)
Definition user_keys (s : store) : list string :=
  filter (λ k, redis_client.glob_match "user:*" k = true) (map_to_list s).*1.

(** The store a request leaves behind, written out command by command
    (proved against the handlers in [handle_store]). *)
Definition store_after (r : request) (s : store) : store :=
  match r with
  | CreateUser u =>
      match s !! user_key (email u) with
      | Some _ => s
      | None => <[user_key (email u) := user_mapping u]> s
      end
  | UpdateUser e u =>
      match s !! user_key e with
      | Some old => <[user_key e := user_mapping u ∪ old]> s
      | None => s
      end
  | DeleteUser e => delete (user_key e) s
  | ReadRoot | GetUser _ | GetAllUsers => s
  end.

(** The entries of the store under the keys that ['user:*'] matches. *)
Definition user_entries (s : store) : list (string * fields) :=
  filter (λ kv, redis_client.glob_match "user:*" kv.1 = true) (map_to_list s).

(** Every stored record lies under the key made from its own email field. *)
Definition keyed_by_email (s : store) : Prop :=
  ∀ k m, s !! k = Some m → ∃ e, m !! "email" = Some e ∧ k = user_key e.

(** No two stored records carry the same email value. *)
Definition one_record_per_email (s : store) : Prop :=
  ∀ k1 k2 m1 m2 e,
    s !! k1 = Some m1 → s !! k2 = Some m2 →
    m1 !! "email" = Some e → m2 !! "email" = Some e →
    k1 = k2.

(** An update whose body carries the email of its path. *)
Definition keeps_email (r : request) : Prop :=
  match r with
  | UpdateUser e u => email u = e
  | _ => True
  end.

(** The users the list handler answers with. *)
Definition listed (s : store) : list fields :=
  match result_of get_all_users s with
  | Returned (Users users) => users
  | _ => []
  end.

(** The key a request works on: the handlers with an email build one key
    from it, the health check and the listing name none. *)
Definition request_key (r : request) : option string :=
  match r with
  | CreateUser u => Some (user_key (email u))
  | GetUser e | UpdateUser e _ | DeleteUser e => Some (user_key e)
  | ReadRoot | GetAllUsers => None
  end.

(** ** The handlers in closed form *)

Example glob_match_examples :
  redis_client.glob_match "user:*" "user:ann@x.com" = true ∧
  redis_client.glob_match "user:*" "user:" = true ∧
  redis_client.glob_match "user:*" "users" = false ∧
  redis_client.glob_match "user:*" "session:ann@x.com" = false.
Proof. repeat split; reflexivity. Qed.

Example ann_session :
  (run [CreateUser (mkUser "Ann" "ann@x.com"); GetUser "ann@x.com";
        DeleteUser "ann@x.com"; GetUser "ann@x.com"] ∅).1
  = [created; Returned (UserData (record_of "Ann" "ann@x.com")); deleted;
     Raised not_found].
Proof. vm_compute. reflexivity. Qed.

Lemma decode_items_id (m : fields) : decode_items m = m.
Proof.
  unfold decode_items.
  replace (prod_map decode decode <$> map_to_list m) with (map_to_list m).
  - apply list_to_map_to_list.
  - induction (map_to_list m) as [|[k v] l IH]; [done|].
    cbn. by rewrite <- IH.
Qed.

Lemma user_key_inj (e1 e2 : string) : user_key e1 = user_key e2 → e1 = e2.
Proof. unfold user_key. intros H. by simplify_eq/=. Qed.

Lemma record_of_user (n e : string) : record_of n e = user_mapping (mkUser n e).
Proof. reflexivity. Qed.

Lemma user_mapping_name (u : User) : user_mapping u !! "name" = Some (name u).
Proof. unfold user_mapping. by rewrite lookup_insert_eq. Qed.

Lemma user_mapping_email (u : User) : user_mapping u !! "email" = Some (email u).
Proof.
  unfold user_mapping. rewrite lookup_insert_ne by done. by rewrite lookup_insert_eq.
Qed.

Lemma user_mapping_other (u : User) (f : string) :
  f ≠ "name" → f ≠ "email" → user_mapping u !! f = None.
Proof.
  intros Hn He. unfold user_mapping.
  rewrite !lookup_insert_ne by done. apply lookup_empty.
Qed.

Lemma create_user_run (u : User) (s : store) :
  create_user u s =
    match s !! user_key (email u) with
    | Some _ => (Raised conflict, s)
    | None => (created, <[user_key (email u) := user_mapping u]> s)
    end.
Proof.
  unfold create_user, mbind, handler_bind, bind, redis_client.exists_,
    redis_client.hset; cbn.
  destruct (s !! user_key (email u)) as [old|] eqn:Hk; cbn; [done|].
  unfold user_key in Hk |- *. cbn in Hk |- *. rewrite Hk. cbn.
  by rewrite (right_id ∅ (∪)).
Qed.

Lemma get_user_run (e : string) (s : store) :
  get_user e s =
    match s !! user_key e with
    | Some m => (Returned (UserData m), s)
    | None => (Raised not_found, s)
    end.
Proof.
  unfold get_user, mbind, handler_bind, bind, redis_client.exists_,
    redis_client.hgetall; cbn.
  destruct (s !! user_key e) as [old|] eqn:Hk; cbn; [|done].
  unfold user_key in Hk |- *. cbn in Hk |- *. rewrite Hk. cbn.
  by rewrite decode_items_id.
Qed.

Lemma update_user_run (e : string) (u : User) (s : store) :
  update_user e u s =
    match s !! user_key e with
    | Some old => (updated, <[user_key e := user_mapping u ∪ old]> s)
    | None => (Raised not_found, s)
    end.
Proof.
  unfold update_user, mbind, handler_bind, bind, redis_client.exists_,
    redis_client.hset; cbn.
  destruct (s !! user_key e) as [old|] eqn:Hk; cbn; [|done].
  unfold user_key in Hk |- *. cbn in Hk |- *. by rewrite Hk.
Qed.

Lemma delete_user_run (e : string) (s : store) :
  delete_user e s =
    match s !! user_key e with
    | Some _ => (deleted, delete (user_key e) s)
    | None => (Raised not_found, s)
    end.
Proof.
  unfold delete_user, mbind, handler_bind, bind, redis_client.delete; cbn.
  destruct (s !! user_key e) as [old|] eqn:Hk; cbn; [done|].
  unfold user_key in Hk |- *. cbn in Hk |- *. by rewrite delete_id.
Qed.

(** ** Create then get *)



(** ** Not found and conflict *)

(** C3: get, update and delete raise not-found exactly when the key
    ["user:" + e] is absent from the store at the time of the call. *)
Theorem not_found_iff_absent (s : store) (e : string) (u : User) :
  (result_of (get_user e) s = Raised not_found ↔ s !! user_key e = None) ∧
  (result_of (update_user e u) s = Raised not_found ↔ s !! user_key e = None) ∧
  (result_of (delete_user e) s = Raised not_found ↔ s !! user_key e = None).
Proof.
  unfold result_of.
  rewrite get_user_run, update_user_run, delete_user_run.
  destruct (s !! user_key e) as [old|]; cbn; repeat split; done.
Qed.

(** C4: create raises a conflict exactly when the key ["user:" + e] already
    exists; creating a second time with the same email is a conflict, in
    whatever store the first call was made. *)
Theorem conflict_iff_exists (s : store) (u : User) (n' : string) :
  (result_of (create_user u) s = Raised conflict
     ↔ is_Some (s !! user_key (email u))) ∧
  result_of (create_user (mkUser n' (email u))) (store_of (create_user u) s)
    = Raised conflict.
Proof.
  unfold result_of, store_of. rewrite !create_user_run.
  destruct (s !! user_key (email u)) as [old|] eqn:Hk; cbn.
  - rewrite Hk. split; [|done]. by split; [eexists|].
  - rewrite lookup_insert_eq. split; [|done].
    split; [done|]. intros [old Hold]. discriminate Hold.
Qed.

(** ** Update *)

(** What [HSET] leaves under the key: the given fields win, the other
    fields of the hash stay. *)
Lemma update_user_stored (s : store) (e : string) (u : User) (old : fields) :
  s !! user_key e = Some old →
  store_of (update_user e u) s !! user_key e = Some (user_mapping u ∪ old).
Proof.
  intros Hk. unfold store_of. rewrite update_user_run, Hk; cbn.
  apply lookup_insert_eq.
Qed.

(** A hash with no other field than [name] and [email] is replaced whole. *)
Lemma user_mapping_union (u : User) (old : fields) :
  dom old ⊆ {["name"; "email"]} → user_mapping u ∪ old = user_mapping u.
Proof.
  intros Hdom. apply map_eq; intros f.
  destruct (user_mapping u !! f) as [v|] eqn:Hf.
  - by apply lookup_union_Some_l.
  - apply lookup_union_None_2; [done|].
    apply not_elem_of_dom. intros Hin. apply Hdom in Hin.
    assert (f = "name" ∨ f = "email") as [->| ->] by set_solver.
    + by rewrite user_mapping_name in Hf.
    + by rewrite user_mapping_email in Hf.
Qed.

Lemma dom_user_mapping (u : User) : dom (user_mapping u) = {["name"; "email"]}.
Proof. unfold user_mapping. rewrite !dom_insert_L. set_solver. Qed.

(** Counterexample to C5 as stated: on a record that holds one more field,
    the field is still there after the update. *)
Lemma update_not_wholesale :
  let s : store :=
    {[ user_key "ann@x.com" := <["nick" := "annie"]> (record_of "Ann" "ann@x.com") ]} in
  let s' := store_of (update_user "ann@x.com" (mkUser "Anna" "ann@x.com")) s in
  is_Some (s !! user_key "ann@x.com") ∧
  (∃ m, s' !! user_key "ann@x.com" = Some m ∧ m !! "nick" = Some "annie") ∧
  s' !! user_key "ann@x.com" ≠ Some (record_of "Anna" "ann@x.com").
Proof.
  cbn zeta.
  set (old := <["nick" := "annie"]> (record_of "Ann" "ann@x.com")).
  assert (({[user_key "ann@x.com" := old]} : store) !! user_key "ann@x.com"
          = Some old) as Hk by apply lookup_singleton_eq.
  assert ((user_mapping (mkUser "Anna" "ann@x.com") ∪ old) !! "nick"
          = Some "annie") as Hnick.
  { apply lookup_union_Some_raw. right. split.
    - by apply user_mapping_other.
    - apply lookup_insert_eq. }
  split; [by rewrite Hk|].
  rewrite (update_user_stored _ _ _ old Hk). split.
  - exists (user_mapping (mkUser "Anna" "ann@x.com") ∪ old).
    split; [reflexivity|exact Hnick].
  - intros Heq. apply (inj Some) in Heq. rewrite Heq in Hnick.
    by rewrite record_of_user, user_mapping_other in Hnick.
Qed.

(** ** Listing *)

(** The loop reads one hash per key and appends it; it never raises and
    leaves the store as it was. *)
Lemma collect_users_run (keys : list string) (users : list fields) (s : store) :
  collect_users keys users s
  = (Returned (users ++ ((λ k, default ∅ (s !! k)) <$> keys))%list, s).
Proof.
  revert users. induction keys as [|k keys IH]; intros users; cbn.
  - unfold mret, handler_ret, ret. by rewrite (right_id [] (++)).
  - unfold mbind, handler_bind, bind, redis_client.hgetall; cbn.
    rewrite IH, decode_items_id, <- (assoc (++)). done.
Qed.

Lemma get_all_users_run (s : store) :
  get_all_users s
  = (Returned (Users ((λ k, default ∅ (s !! k)) <$> user_keys s)), s).
Proof.
  unfold get_all_users, mbind, handler_bind, bind, redis_client.keys; cbn.
  by rewrite collect_users_run.
Qed.

(** ** What each request does to the store *)

Lemma handle_store (r : request) (s : store) :
  store_of (handle r) s = store_after r s.
Proof.
  unfold store_of. destruct r as [|u|e|e u|e|]; cbn [handle store_after].
  - done.
  - rewrite create_user_run. by destruct (s !! _).
  - rewrite get_user_run. by destruct (s !! _).
  - rewrite update_user_run. by destruct (s !! _).
  - rewrite delete_user_run. destruct (s !! _) eqn:Hk; cbn; [done|].
    by rewrite delete_id.
  - by rewrite get_all_users_run.
Qed.

Lemma run_cons (r : request) (rs : list request) (s : store) :
  run (r :: rs) s
  = (result_of (handle r) s :: (run rs (store_of (handle r) s)).1,
     (run rs (store_of (handle r) s)).2).
Proof.
  unfold result_of, store_of. cbn [run].
  destruct (handle r s) as [o s1]; cbn.
  by destruct (run rs s1) as [os s2].
Qed.

Lemma run_app (rs1 rs2 : list request) (s : store) :
  (run (rs1 ++ rs2) s).2 = (run rs2 (run rs1 s).2).2.
Proof.
  revert s. induction rs1 as [|r rs1 IH]; intros s; [done|].
  rewrite <- app_comm_cons, !run_cons; cbn. apply IH.
Qed.

(** Induction over the reachable stores: a property of the empty store
    that every request keeps holds of every reachable store. *)
Lemma reachable_ind (P : store → Prop) :
  P ∅ →
  (∀ s r, reachable s → P s → P (store_after r s)) →
  ∀ s, reachable s → P s.
Proof.
  intros Hempty Hstep s [rs ->].
  induction rs as [|r rs IH] using rev_ind; [done|].
  rewrite run_app, run_cons; cbn [run snd].
  rewrite handle_store. apply Hstep; [by eexists|exact IH].
Qed.

(** In a reachable store every record holds the fields [name] and [email]
    and no other. *)
Lemma reachable_record_fields (s : store) (k : string) (m : fields) :
  reachable s → s !! k = Some m → dom m = {["name"; "email"]}.
Proof.
  intros Hs. revert k m. induction Hs as [|s r _ IH] using reachable_ind.
  - intros k m Hk. by rewrite lookup_empty in Hk.
  - intros k m. destruct r as [|u|e|e u|e|]; cbn [store_after]; try apply IH.
    + destruct (s !! user_key (email u)) eqn:Hk; [apply IH|].
      rewrite lookup_insert. case_decide; [|apply IH].
      intros [= <-]. apply dom_user_mapping.
    + destruct (s !! user_key e) as [old|] eqn:Hk; [|apply IH].
      rewrite lookup_insert. case_decide; [|apply IH].
      intros [= <-]. rewrite dom_union_L, dom_user_mapping, (IH _ _ Hk).
      set_solver.
    + rewrite lookup_delete. case_decide; [done|apply IH].
Qed.

(** C5 (amended): when the key ["user:" + e] exists, after an update on
    path email [e] with body [(n', e')] the record under the key has the
    name [n'] and the email [e'] and keeps every other field it had; it is
    exactly [{name: n', email: e'}] when the record had no field besides
    [name] and [email], which is so in every store reachable from the empty
    one through the six operations. *)
Theorem update_overwrites_fields (s : store) (e n' e' : string) (old : fields) :
  s !! user_key e = Some old →
  let s' := store_of (update_user e (mkUser n' e')) s in
  (∃ m, s' !! user_key e = Some m ∧
        m !! "name" = Some n' ∧ m !! "email" = Some e' ∧
        ∀ f, f ≠ "name" → f ≠ "email" → m !! f = old !! f) ∧
  (dom old ⊆ {["name"; "email"]} → s' !! user_key e = Some (record_of n' e')) ∧
  (reachable s → s' !! user_key e = Some (record_of n' e')).
Proof.
  intros Hk s'. subst s'. rewrite (update_user_stored _ _ _ _ Hk).
  split; [|split].
  - eexists. split; [reflexivity|]. repeat split.
    + apply lookup_union_Some_l, user_mapping_name.
    + apply lookup_union_Some_l, user_mapping_email.
    + intros f Hn He. rewrite lookup_union_r; [done|].
      by apply user_mapping_other.
  - intros Hdom. by rewrite user_mapping_union.
  - intros Hs. rewrite user_mapping_union; [done|].
    by rewrite (reachable_record_fields _ _ _ Hs Hk).
Qed.

Lemma update_overwrites_fields_witness :
  let s : store := {[ user_key "ann@x.com" := record_of "Ann" "ann@x.com" ]} in
  store_of (update_user "ann@x.com" (mkUser "Anna" "anna@x.com")) s
    !! user_key "ann@x.com"
  = Some (record_of "Anna" "anna@x.com").
Proof.
  cbn zeta.
  refine (proj1 (proj2 (update_overwrites_fields _ "ann@x.com" "Anna" "anna@x.com"
                          (record_of "Ann" "ann@x.com") _)) _).
  - apply lookup_singleton_eq.
  - by rewrite record_of_user, dom_user_mapping.
Defined.

(** ** Sequences of calls *)

(** C6: for a fresh email [e], after creating [(n, e)] and updating path
    email [e] with body [(n', e)], getting [e] returns a field map whose
    name field is [n']. *)
Theorem create_update_get (s : store) (n n' e : string) :
  s !! user_key e = None →
  ∃ m, (run [CreateUser (mkUser n e); UpdateUser e (mkUser n' e); GetUser e] s).1
         = [created; updated; Returned (UserData m)] ∧
       m !! "name" = Some n'.
Proof.
  intros Hfresh. exists (user_mapping (mkUser n' e) ∪ user_mapping (mkUser n e)).
  split; [|apply lookup_union_Some_l, user_mapping_name].
  rewrite !run_cons; unfold result_of, store_of; cbn [run handle fst snd].
  rewrite create_user_run; cbn [email]. rewrite Hfresh; cbn [fst snd].
  rewrite update_user_run, lookup_insert_eq; cbn [fst snd].
  by rewrite get_user_run, lookup_insert_eq.
Qed.

Lemma create_update_get_witness :
  ∃ m, (run [CreateUser (mkUser "Ann" "ann@x.com");
             UpdateUser "ann@x.com" (mkUser "Anna" "ann@x.com");
             GetUser "ann@x.com"] ∅).1
         = [created; updated; Returned (UserData m)] ∧
       m !! "name" = Some "Anna".
Proof. apply (create_update_get ∅ "Ann" "Anna" "ann@x.com"). apply lookup_empty. Defined.

(** C7: after a create with email [e] that succeeds and a delete with
    email [e] that succeeds, getting [e] raises not-found. *)
Theorem create_delete_get (s : store) (u : User) :
  result_of (create_user u) s = created →
  let s1 := store_of (create_user u) s in
  result_of (delete_user (email u)) s1 = deleted →
  let s2 := store_of (delete_user (email u)) s1 in
  result_of (get_user (email u)) s2 = Raised not_found.
Proof.
  intros _ s1 _ s2. subst s2. unfold result_of.
  rewrite (handle_store (DeleteUser (email u))); cbn [store_after].
  by rewrite get_user_run, lookup_delete_eq.
Qed.

Lemma create_delete_get_witness :
  let u := mkUser "Ann" "ann@x.com" in
  result_of (get_user "ann@x.com")
    (store_of (delete_user "ann@x.com") (store_of (create_user u) ∅))
  = Raised not_found.
Proof.
  cbn zeta. apply (create_delete_get ∅ (mkUser "Ann" "ann@x.com")).
  - unfold result_of. rewrite create_user_run. cbn [email].
    by rewrite lookup_empty.
  - unfold result_of, store_of. rewrite create_user_run. cbn [email].
    rewrite lookup_empty. cbn [fst snd].
    by rewrite delete_user_run, lookup_insert_eq.
Defined.

(** ** Frame and atomicity *)



(** C10: when a call ends in an error, the store after the call is the
    store before it. *)
Theorem error_leaves_store (s : store) (r : request) (err : HTTPException) :
  result_of (handle r) s = Raised err →
  store_of (handle r) s = s.
Proof.
  rewrite handle_store. unfold result_of.
  destruct r as [|u|e|e u|e|]; cbn [handle store_after]; try done.
  - rewrite create_user_run. by destruct (s !! user_key (email u)).
  - rewrite update_user_run. by destruct (s !! user_key e).
  - rewrite delete_user_run. destruct (s !! user_key e) eqn:Hk; [done|].
    intros _. by apply delete_id.
Qed.

Lemma error_leaves_store_witness :
  let s : store := {[ user_key "ann@x.com" := record_of "Ann" "ann@x.com" ]} in
  store_of (create_user (mkUser "Anna" "ann@x.com")) s = s.
Proof.
  cbn zeta.
  apply (error_leaves_store _ (CreateUser (mkUser "Anna" "ann@x.com")) conflict).
  unfold result_of. cbn [handle]. rewrite create_user_run. cbn [email].
  by rewrite lookup_singleton_eq.
Defined.

(** ** Listing after creates *)

Lemma glob_match_literal (c : ascii) (pattern key : string) :
  Ascii.eqb c "*" = false →
  redis_client.glob_match (String c pattern) key = true
  ↔ ∃ key', key = String c key' ∧ redis_client.glob_match pattern key' = true.
Proof.
  intros Hc. cbn [redis_client.glob_match]. rewrite Hc.
  destruct key as [|d key'].
  - split; [done|]. by intros (? & [=] & _).
  - rewrite andb_true_iff. split.
    + intros [Hcd Hrest]. apply Ascii.eqb_eq in Hcd as ->. by eexists.
    + intros (k & [= -> ->] & Hrest). split; [apply Ascii.eqb_refl|done].
Qed.

Lemma glob_match_star (key : string) : redis_client.glob_match "*" key = true.
Proof.
  cbn. induction key as [|d key IH]; [done|]. cbn. exact IH.
Qed.

(** ['user:*'] matches the keys that start with ["user:"], which are the
    keys [user_key e]. *)
Lemma glob_match_user_key (key : string) :
  redis_client.glob_match "user:*" key = true ↔ ∃ e, key = user_key e.
Proof.
  unfold user_key. split.
  - intros H.
    apply glob_match_literal in H as (k1 & -> & H); [|done].
    apply glob_match_literal in H as (k2 & -> & H); [|done].
    apply glob_match_literal in H as (k3 & -> & H); [|done].
    apply glob_match_literal in H as (k4 & -> & H); [|done].
    apply glob_match_literal in H as (k5 & -> & H); [|done].
    by exists k5.
  - intros [e ->].
    do 5 (apply glob_match_literal; [done|]; eexists; split; [reflexivity|]).
    apply glob_match_star.
Qed.

Lemma lookup_filtered_keys (s : store) (l : list (string * fields)) :
  (∀ k m, (k, m) ∈ l → s !! k = Some m) →
  (λ k, default ∅ (s !! k))
    <$> filter (λ k, redis_client.glob_match "user:*" k = true) l.*1
  = (filter (λ kv, redis_client.glob_match "user:*" kv.1 = true) l).*2.
Proof.
  induction l as [|[k m] l IH]; intros Hl; [done|].
  cbn [fmap list_fmap fst]. rewrite !filter_cons; cbn [fst].
  assert (s !! k = Some m) as Hk by (apply Hl; left).
  case_decide; cbn; [rewrite Hk; cbn; f_equal|]; apply IH;
    intros k' m' Hin; apply Hl; by right.
Qed.

(** What the list handler returns: the record of every matching entry. *)
Lemma get_all_users_entries (s : store) :
  result_of get_all_users s = Returned (Users (user_entries s).*2).
Proof.
  unfold result_of. rewrite get_all_users_run; cbn [fst].
  unfold user_keys, user_entries. rewrite lookup_filtered_keys; [done|].
  intros k m. apply elem_of_map_to_list.
Qed.

Lemma user_entries_insert (s : store) (e : string) (m : fields) :
  s !! user_key e = None →
  user_entries (<[user_key e := m]> s) ≡ₚ (user_key e, m) :: user_entries s.
Proof.
  intros Hk. unfold user_entries.
  rewrite (map_to_list_insert s _ m Hk), filter_cons_True; [done|].
  apply glob_match_user_key. by eexists.
Qed.

Lemma user_entries_none (s : store) :
  (∀ k, redis_client.glob_match "user:*" k = true → s !! k = None) →
  user_entries s = [].
Proof.
  intros Hnone. unfold user_entries.
  assert (Forall (λ kv : string * fields,
            redis_client.glob_match "user:*" kv.1 ≠ true) (map_to_list s)) as Hall.
  { apply Forall_forall. intros [k' m'] Hin Hmatch.
    apply elem_of_map_to_list in Hin. cbn in Hmatch.
    by rewrite (Hnone _ Hmatch) in Hin. }
  induction Hall as [|kv l' Hkv _ IH']; [done|].
  by rewrite filter_cons_False.
Qed.

(** Creating users with pairwise distinct emails whose keys are all free:
    every call goes through and each adds its record to the listing. *)
Lemma run_creates (us : list User) (s : store) :
  NoDup (email <$> us) →
  (∀ u, u ∈ us → s !! user_key (email u) = None) →
  (run (CreateUser <$> us) s).1 = (λ _, created) <$> us ∧
  (user_entries (run (CreateUser <$> us) s).2).*2
    ≡ₚ ((user_mapping <$> us) ++ (user_entries s).*2)%list.
Proof.
  revert s. induction us as [|u us IH]; intros s Hnodup Hfree; [done|].
  apply NoDup_cons in Hnodup as [Hu Hnodup].
  assert (s !! user_key (email u) = None) as Hk by (apply Hfree; left).
  cbn [fmap list_fmap]. rewrite run_cons. unfold result_of, store_of.
  cbn [handle]. rewrite create_user_run, Hk. cbn [fst snd].
  destruct (IH (<[user_key (email u) := user_mapping u]> s) Hnodup) as [Hos Hentries].
  { intros u' Hu'. rewrite lookup_insert_ne; [apply Hfree; by right|].
    intros Heq. apply user_key_inj in Heq. apply Hu.
    rewrite Heq. apply list_elem_of_fmap. by exists u'. }
  split; [by rewrite Hos|].
  rewrite Hentries, (user_entries_insert _ _ _ Hk). cbn [fmap list_fmap snd].
  by rewrite <- Permutation_middle.
Qed.

(** C8: from a store with no key matching ['user:*'], after N creates with
    pairwise distinct emails (each of which goes through) the list handler
    returns N entries, the field maps of the created users in some order;
    on a store with no matching key it returns the empty list. *)
Theorem list_after_creates (s : store) (us : list User) :
  (∀ k, redis_client.glob_match "user:*" k = true → s !! k = None) →
  NoDup (email <$> us) →
  result_of get_all_users s = Returned (Users []) ∧
  (run (CreateUser <$> us) s).1 = (λ _, created) <$> us ∧
  ∃ l, result_of get_all_users (run (CreateUser <$> us) s).2 = Returned (Users l) ∧
       length l = length us ∧
       l ≡ₚ (λ u, record_of (name u) (email u)) <$> us.
Proof.
  intros Hnone Hnodup.
  destruct (run_creates us s Hnodup) as [Hos Hentries].
  { intros u _. apply Hnone, glob_match_user_key. by eexists. }
  rewrite (user_entries_none s Hnone), (right_id [] (++)) in Hentries.
  split; [|split].
  - by rewrite get_all_users_entries, user_entries_none.
  - exact Hos.
  - eexists. split; [apply get_all_users_entries|]. split; [|exact Hentries].
    by rewrite Hentries, length_fmap.
Qed.

Lemma list_after_creates_witness :
  let us := [mkUser "Ann" "ann@x.com"; mkUser "Bob" "bob@x.com"] in
  ∃ l, result_of get_all_users (run (CreateUser <$> us) ∅).2 = Returned (Users l) ∧
       length l = 2 ∧
       l ≡ₚ [record_of "Ann" "ann@x.com"; record_of "Bob" "bob@x.com"].
Proof.
  cbn zeta.
  refine (proj2 (proj2 (list_after_creates ∅
            [mkUser "Ann" "ann@x.com"; mkUser "Bob" "bob@x.com"] _ _))).
  - intros k _. apply lookup_empty.
  - cbn. apply NoDup_cons. split; [|apply NoDup_singleton].
    intros Hin. apply list_elem_of_singleton in Hin. discriminate Hin.
Defined.

(** ** Records and their keys *)

Lemma keyed_one_record (s : store) : keyed_by_email s → one_record_per_email s.
Proof.
  intros Hkeyed k1 k2 m1 m2 e H1 H2 He1 He2.
  destruct (Hkeyed _ _ H1) as (e1 & He1' & ->).
  destruct (Hkeyed _ _ H2) as (e2 & He2' & ->).
  congruence.
Qed.

(** As long as no update changes the email, records stay under the key of
    their email. *)
Lemma keyed_when_updates_keep_email (rs : list request) :
  Forall keeps_email rs → keyed_by_email (run rs ∅).2.
Proof.
  induction rs as [|r rs IH] using rev_ind; intros Hrs.
  - intros k m Hk. cbn [run snd] in Hk. by rewrite lookup_empty in Hk.
  - apply Forall_app in Hrs as [Hrs Hr]. apply Forall_inv in Hr.
    specialize (IH Hrs). rewrite run_app, run_cons; cbn [run snd].
    rewrite handle_store. set (s := (run rs ∅).2) in *.
    intros k m. destruct r as [|u|e|e u|e|]; cbn [store_after]; try apply IH.
    + destruct (s !! user_key (email u)); [apply IH|].
      rewrite lookup_insert. case_decide as Hk; [|apply IH].
      intros [= <-]. exists (email u). by rewrite user_mapping_email.
    + destruct (s !! user_key e) as [old|]; [|apply IH].
      rewrite lookup_insert. case_decide as Hk; [|apply IH].
      intros [= <-]. exists (email u). split; [|cbn in Hr; congruence].
      apply lookup_union_Some_l, user_mapping_email.
    + rewrite lookup_delete. case_decide; [done|apply IH].
Qed.

(** C2 fails on the code: an update whose body carries another email than
    its path leaves the record under the old key, and the new email can
    then be created a second time. *)
Theorem update_breaks_keying :
  let rs := [CreateUser (mkUser "Ann" "ann@x.com");
             UpdateUser "ann@x.com" (mkUser "Ann" "bob@x.com");
             CreateUser (mkUser "Bob" "bob@x.com")] in
  let s := (run rs ∅).2 in
  (run rs ∅).1 = [created; updated; created] ∧
  reachable s ∧
  s !! user_key "ann@x.com" = Some (record_of "Ann" "bob@x.com") ∧
  s !! user_key "bob@x.com" = Some (record_of "Bob" "bob@x.com") ∧
  ¬ keyed_by_email s ∧
  ¬ one_record_per_email s.
Proof.
  cbn zeta.
  set (rs := [CreateUser _; UpdateUser _ _; CreateUser _]).
  assert (run rs ∅ =
    ([created; updated; created],
     <[user_key "bob@x.com" := record_of "Bob" "bob@x.com"]>
       (<[user_key "ann@x.com" := record_of "Ann" "bob@x.com"]>
          (<[user_key "ann@x.com" := record_of "Ann" "ann@x.com"]> ∅)))) as Hrun.
  { subst rs. rewrite !run_cons; unfold result_of, store_of; cbn [run handle].
    rewrite create_user_run; cbn [email]. rewrite lookup_empty; cbn [fst snd].
    rewrite update_user_run, lookup_insert_eq; cbn [fst snd].
    rewrite create_user_run; cbn [email].
    rewrite lookup_insert_ne by done. rewrite lookup_insert_ne by done.
    rewrite lookup_empty; cbn [fst snd].
    rewrite user_mapping_union; [done|]. by rewrite dom_user_mapping. }
  assert ((run rs ∅).2 !! user_key "ann@x.com"
          = Some (record_of "Ann" "bob@x.com")) as Hann.
  { rewrite Hrun; cbn [snd]. rewrite lookup_insert_ne by done.
    apply lookup_insert_eq. }
  assert ((run rs ∅).2 !! user_key "bob@x.com"
          = Some (record_of "Bob" "bob@x.com")) as Hbob.
  { rewrite Hrun; cbn [snd]. apply lookup_insert_eq. }
  assert (¬ one_record_per_email (run rs ∅).2) as Hdup.
  { intros Hone.
    specialize (Hone _ _ _ _ "bob@x.com" Hann Hbob
                  (user_mapping_email (mkUser "Ann" "bob@x.com"))
                  (user_mapping_email (mkUser "Bob" "bob@x.com"))).
    discriminate Hone. }
  split; [by rewrite Hrun|]. split; [by exists rs|].
  split; [done|]. split; [done|]. split; [|done].
  intros Hkeyed. by apply Hdup, keyed_one_record.
Qed.

(** ** Outcomes of the handlers *)

Lemma handle_result (r : request) (s : store) :
  result_of (handle r) s =
    match r with
    | ReadRoot => Returned (Message "Welcome to the Redis API")
    | CreateUser u =>
        if s !! user_key (email u) is Some _ then Raised conflict else created
    | GetUser e =>
        if s !! user_key e is Some m then Returned (UserData m) else Raised not_found
    | UpdateUser e _ =>
        if s !! user_key e is Some _ then updated else Raised not_found
    | DeleteUser e =>
        if s !! user_key e is Some _ then deleted else Raised not_found
    | GetAllUsers => Returned (Users (user_entries s).*2)
    end.
Proof.
  destruct r as [|u|e|e u|e|]; cbn [handle].
  - done.
  - unfold result_of. rewrite create_user_run. by destruct (s !! _).
  - unfold result_of. rewrite get_user_run. by destruct (s !! _).
  - unfold result_of. rewrite update_user_run. by destruct (s !! _).
  - unfold result_of. rewrite delete_user_run. by destruct (s !! _).
  - apply get_all_users_entries.
Qed.




(** ** The keys of the store *)

(** X3: the set of keys after a call, whether it went through or raised:
    create leaves the request's key present and no other key added, update
    neither adds nor removes a key, delete leaves exactly the other keys. *)
Theorem keys_after (s : store) (e : string) (u : User) :
  dom (store_of (create_user u) s) = {[user_key (email u)]} ∪ dom s ∧
  dom (store_of (update_user e u) s) = dom s ∧
  dom (store_of (delete_user e) s) = dom s ∖ {[user_key e]}.
Proof.
  rewrite (handle_store (CreateUser u)), (handle_store (UpdateUser e u)),
    (handle_store (DeleteUser e)); cbn [store_after].
  split; [|split].
  - destruct (s !! user_key (email u)) eqn:Hk; [|apply dom_insert_L].
    symmetry. apply subseteq_union_1_L, singleton_subseteq_l, elem_of_dom.
    by eexists.
  - destruct (s !! user_key e) eqn:Hk; [|done].
    rewrite dom_insert_L.
    apply subseteq_union_1_L, singleton_subseteq_l, elem_of_dom. by eexists.
  - apply dom_delete_L.
Qed.

(** X4: creating a user under a free key and then deleting that email
    gives back the very store the two calls started from. *)
Theorem create_then_delete_restores (s : store) (u : User) :
  s !! user_key (email u) = None →
  (run [CreateUser u; DeleteUser (email u)] s) = ([created; deleted], s).
Proof.
  intros Hfree. rewrite !run_cons; unfold result_of, store_of; cbn [run handle].
  rewrite create_user_run, Hfree; cbn [fst snd].
  rewrite delete_user_run, lookup_insert_eq; cbn [fst snd].
  by rewrite delete_insert_id.
Qed.

Lemma create_then_delete_restores_witness :
  run [CreateUser (mkUser "Ann" "ann@x.com"); DeleteUser "ann@x.com"] ∅
  = ([created; deleted], ∅).
Proof.
  apply (create_then_delete_restores ∅ (mkUser "Ann" "ann@x.com")).
  apply lookup_empty.
Defined.

(** X5: after a delete of email [e], gone through or not, the email is
    free: get, update and a second delete raise not-found, and a create
    with that email goes through. *)
Theorem after_delete_free (s : store) (e n : string) (u : User) :
  let s' := store_of (delete_user e) s in
  result_of (get_user e) s' = Raised not_found ∧
  result_of (update_user e u) s' = Raised not_found ∧
  result_of (delete_user e) s' = Raised not_found ∧
  result_of (create_user (mkUser n e)) s' = created.
Proof.
  cbn zeta. rewrite (handle_store (DeleteUser e)); cbn [store_after].
  rewrite (handle_result (GetUser e)), (handle_result (UpdateUser e u)),
    (handle_result (DeleteUser e)), (handle_result (CreateUser (mkUser n e))).
  cbn [email]. by rewrite lookup_delete_eq.
Qed.

(** ** Updates one after the other *)

Lemma user_mapping_union_union (u1 u2 : User) (old : fields) :
  user_mapping u2 ∪ (user_mapping u1 ∪ old) = user_mapping u2 ∪ old.
Proof.
  rewrite (assoc_L (∪)), (user_mapping_union u2 (user_mapping u1)); [done|].
  by rewrite dom_user_mapping.
Qed.

(** X6: of two updates of the same path email the second one wins: the
    store is the one the second update alone would leave, and both calls
    end as the second alone would; in particular repeating an update
    changes nothing. *)
Theorem last_update_wins (s : store) (e : string) (u1 u2 : User) :
  let s1 := store_of (update_user e u1) s in
  store_of (update_user e u2) s1 = store_of (update_user e u2) s ∧
  result_of (update_user e u2) s1 = result_of (update_user e u2) s ∧
  store_of (update_user e u1) s1 = s1.
Proof.
  cbn zeta. unfold store_of, result_of.
  rewrite (update_user_run e u1 s), (update_user_run e u2 s).
  destruct (s !! user_key e) as [old|] eqn:Hk; cbn [fst snd].
  - rewrite (update_user_run e u2), (update_user_run e u1), lookup_insert_eq.
    cbn [fst snd].
    rewrite !insert_insert_eq, !user_mapping_union_union. done.
  - rewrite (update_user_run e u2), (update_user_run e u1), Hk. done.
Qed.

(** ** Requests on different keys *)

(** What a request makes of the record under its key. *)
Lemma store_after_partial_alter (r : request) (k : string) (s : store) :
  request_key r = Some k →
  store_after r s =
    partial_alter
      (λ o, match r with
            | CreateUser u => Some (default (user_mapping u) o)
            | UpdateUser _ u => (λ old, user_mapping u ∪ old) <$> o
            | DeleteUser _ => None
            | _ => o
            end) k s.
Proof.
  intros Hk. apply map_eq; intros k'.
  rewrite lookup_partial_alter.
  destruct r as [|u|e|e u|e|]; cbn [request_key] in Hk; try discriminate Hk;
    injection Hk as <-; cbn [store_after].
  - destruct (s !! user_key (email u)) eqn:Hu; case_decide as Hkk'.
    + subst k'. by rewrite Hu.
    + done.
    + subst k'. by rewrite lookup_insert_eq.
    + by rewrite lookup_insert_ne.
  - case_decide as Hkk'; [by subst k'|done].
  - destruct (s !! user_key e) eqn:Hu; case_decide as Hkk'.
    + subst k'. by rewrite lookup_insert_eq.
    + by rewrite lookup_insert_ne.
    + subst k'. by rewrite Hu.
    + done.
  - case_decide as Hkk'.
    + subst k'. by rewrite lookup_delete_eq.
    + by rewrite lookup_delete_ne.
Qed.

Lemma handle_result_lookup (r : request) (k : string) (s1 s2 : store) :
  request_key r = Some k → s1 !! k = s2 !! k →
  result_of (handle r) s1 = result_of (handle r) s2.
Proof.
  intros Hk Heq. rewrite !handle_result.
  destruct r as [|u|e|e u|e|]; cbn [request_key] in Hk; try discriminate Hk;
    injection Hk as <-; by rewrite Heq.
Qed.

(** X7: two requests that work on different keys do not see each other:
    each ends the same way before and after the other, and the store after
    both is the same in either order. *)
Theorem different_keys_commute (s : store) (r1 r2 : request) (k1 k2 : string) :
  request_key r1 = Some k1 → request_key r2 = Some k2 → k1 ≠ k2 →
  result_of (handle r1) (store_of (handle r2) s) = result_of (handle r1) s ∧
  result_of (handle r2) (store_of (handle r1) s) = result_of (handle r2) s ∧
  store_of (handle r2) (store_of (handle r1) s)
    = store_of (handle r1) (store_of (handle r2) s).
Proof.
  intros H1 H2 Hne. rewrite !handle_store.
  rewrite (store_after_partial_alter r1 k1 s H1),
    (store_after_partial_alter r2 k2 s H2).
  split; [|split].
  - apply (handle_result_lookup r1 k1); [done|]. by rewrite lookup_partial_alter_ne.
  - apply (handle_result_lookup r2 k2); [done|]. by rewrite lookup_partial_alter_ne.
  - rewrite (store_after_partial_alter r2 k2 _ H2),
      (store_after_partial_alter r1 k1 _ H1).
    by apply partial_alter_partial_alter_ne.
Qed.

Lemma different_keys_commute_witness :
  let r1 := CreateUser (mkUser "Ann" "ann@x.com") in
  let r2 := DeleteUser "bob@x.com" in
  let s : store := {[ user_key "bob@x.com" := record_of "Bob" "bob@x.com" ]} in
  result_of (handle r1) (store_of (handle r2) s) = result_of (handle r1) s ∧
  result_of (handle r2) (store_of (handle r1) s) = result_of (handle r2) s ∧
  store_of (handle r2) (store_of (handle r1) s)
    = store_of (handle r1) (store_of (handle r2) s).
Proof.
  cbn zeta.
  apply (different_keys_commute _ _ _ (user_key "ann@x.com") (user_key "bob@x.com"));
    [reflexivity|reflexivity|by intros [=]].
Defined.

(** ** What the listing holds *)

Lemma listed_entries (s : store) : listed s = (user_entries s).*2.
Proof. unfold listed. by rewrite get_all_users_entries. Qed.



Lemma user_entries_delete (s : store) (k : string) (m : fields) :
  s !! k = Some m →
  user_entries s ≡ₚ
    filter (λ kv, redis_client.glob_match "user:*" kv.1 = true) [(k, m)]
    ++ user_entries (delete k s).
Proof.
  intros Hk. unfold user_entries.
  rewrite <- (map_to_list_delete s k m Hk) at 1.
  by rewrite <- filter_app.
Qed.

Lemma user_entries_insert_other (s : store) (k : string) (m : fields) :
  (∀ e, k ≠ user_key e) →
  user_entries (<[k := m]> s) ≡ₚ user_entries s ∧
  user_entries (delete k s) ≡ₚ user_entries s.
Proof.
  intros Hk.
  assert (redis_client.glob_match "user:*" k ≠ true) as Hglob.
  { intros [e ->]%glob_match_user_key. by apply (Hk e). }
  assert (user_entries (delete k s) ≡ₚ user_entries s) as Hdel.
  { destruct (s !! k) as [m0|] eqn:Hs; [|by rewrite delete_id].
    rewrite (user_entries_delete s k m0 Hs). by rewrite filter_cons_False. }
  split; [|done].
  rewrite <- insert_delete_eq, <- Hdel. unfold user_entries.
  rewrite map_to_list_insert by apply lookup_delete_eq.
  by rewrite filter_cons_False.
Qed.

(** X9: a key that is not of the form ["user:" + e] does not show in the
    listing: writing or removing such a key leaves the listing the same, up
    to order. *)
Theorem listed_ignores_other_keys (s : store) (k : string) (m : fields) :
  (∀ e, k ≠ user_key e) →
  listed (<[k := m]> s) ≡ₚ listed s ∧ listed (delete k s) ≡ₚ listed s.
Proof.
  intros Hk. rewrite !listed_entries.
  destruct (user_entries_insert_other s k m Hk) as [-> ->]. done.
Qed.

Lemma listed_ignores_other_keys_witness :
  let s : store := {[ user_key "ann@x.com" := record_of "Ann" "ann@x.com" ]} in
  listed (<["session:1" := record_of "x" "y"]> s) ≡ₚ listed s ∧
  listed (delete "session:1" s) ≡ₚ listed s.
Proof.
  cbn zeta. apply listed_ignores_other_keys. intros e He. discriminate He.
Defined.



(** ** Reachable stores *)

Lemma reachable_user_keys (s : store) (k : string) (m : fields) :
  reachable s → s !! k = Some m → ∃ e, k = user_key e.
Proof.
  intros Hs. revert k m. induction Hs as [|s r _ IH] using reachable_ind.
  - intros k m Hk. by rewrite lookup_empty in Hk.
  - intros k m. destruct r as [|u|e|e u|e|]; cbn [store_after]; try apply IH.
    + destruct (s !! user_key (email u)); [apply IH|].
      rewrite lookup_insert. case_decide as Hk; [|apply IH].
      intros _. by exists (email u).
    + destruct (s !! user_key e); [|apply IH].
      rewrite lookup_insert. case_decide as Hk; [|apply IH].
      intros _. by exists e.
    + rewrite lookup_delete. case_decide; [done|apply IH].
Qed.

Lemma user_entries_all (s : store) :
  (∀ k m, s !! k = Some m → ∃ e, k = user_key e) →
  user_entries s = map_to_list s.
Proof.
  intros Hkeys. unfold user_entries.
  assert (Forall (λ kv : string * fields,
            redis_client.glob_match "user:*" kv.1 = true) (map_to_list s)) as Hall.
  { apply Forall_forall. intros [k m] Hin. apply elem_of_map_to_list in Hin.
    apply glob_match_user_key. by apply (Hkeys k m). }
  induction Hall as [|kv l Hkv _ IH]; [done|].
  by rewrite filter_cons_True, IH.
Qed.

(** X11: in a store reached from the empty one through the handlers, every
    key is ["user:" + e] for some [e], every record holds the fields [name]
    and [email] and no other, and the listing returns as many users as the
    store has keys. *)
Theorem reachable_store_shape (s : store) :
  reachable s →
  (∀ k m, s !! k = Some m →
     (∃ e, k = user_key e) ∧ dom m = {["name"; "email"]}) ∧
  length (listed s) = size s.
Proof.
  intros Hs. split.
  - intros k m Hk. split.
    + by apply (reachable_user_keys s k m).
    + by apply (reachable_record_fields s k m).
  - rewrite listed_entries, length_fmap, user_entries_all.
    + apply length_map_to_list.
    + intros k m. by apply reachable_user_keys.
Qed.

Lemma reachable_store_shape_witness :
  let s := (run [CreateUser (mkUser "Ann" "ann@x.com");
                 CreateUser (mkUser "Bob" "bob@x.com");
                 DeleteUser "ann@x.com"] ∅).2 in
  length (listed s) = size s.
Proof.
  cbn zeta. apply reachable_store_shape. by eexists.
Defined.

(** X12: as long as every update carries in its body the email of its
    path, every stored record lies under the key made from its own email
    and no two records carry the same email. *)
Theorem emails_unique_when_updates_keep_email (rs : list request) :
  Forall keeps_email rs →
  keyed_by_email (run rs ∅).2 ∧ one_record_per_email (run rs ∅).2.
Proof.
  intros Hrs.
  assert (keyed_by_email (run rs ∅).2) as Hkeyed
    by by apply keyed_when_updates_keep_email.
  split; [done|]. by apply keyed_one_record.
Qed.

Lemma emails_unique_when_updates_keep_email_witness :
  let rs := [CreateUser (mkUser "Ann" "ann@x.com");
             UpdateUser "ann@x.com" (mkUser "Anna" "ann@x.com");
             CreateUser (mkUser "Bob" "bob@x.com")] in
  keyed_by_email (run rs ∅).2 ∧ one_record_per_email (run rs ∅).2.
Proof.
  cbn zeta. apply emails_unique_when_updates_keep_email.
  repeat constructor.
Defined.
